(** * gtirb-pprinter: [include/gtirb_pprinter/PrettyPrinter.hpp]

    A shallow embedding of the pretty printer's public header, with the
    properties the specification states about it.

    - [PolicyOptions]: the class [PolicyOptions] (lines 98-119). Its
      methods have their bodies in the header and are embedded from them.
    - [PolicySetters], [PrettyPrinter]: sequences of calls of those
      methods, and the inline accessors of [class PrettyPrinter] (lines
      193-206).
    - [TargetRegistry], [FunctionBoundaries], [DataBlocks]: operations the
      header only declares. Their definitions follow the specification and
      say so in their comments. *)

From Stdlib Require Import Strings.Byte.
From stdpp Require Import gmap strings list sorting.

Set Warnings "-clear-no-such-hyp".

(** ** [class PolicyOptions]

    [std::unordered_set<std::string>] is a finite set of strings: [gset
    string]. The methods are embedded as transformers of an explicit store
    that holds the receiver ([this]) and the set the caller passes by
    reference ([c]). *)
Module PolicyOptions.

(** The private members: [Skip], [Keep] and [UseDefaults]. *)
Record t : Type := mk {
  Skip : gset string;
  Keep : gset string;
  UseDefaults : bool
}.

(** A default-constructed object: both sets empty, [UseDefaults = true]
    (the member initialiser on line 118). *)
Definition default : t :=
  {| Skip := ∅; Keep := ∅; UseDefaults := true |}.

(** [void skip(const std::string& s) { Skip.insert(s); }] *)
Definition skip (s : string) (o : t) : t :=
  {| Skip := {[ s ]} ∪ Skip o; Keep := Keep o; UseDefaults := UseDefaults o |}.

(** [void keep(const std::string& s) { Keep.insert(s); }] *)
Definition keep (s : string) (o : t) : t :=
  {| Skip := Skip o; Keep := {[ s ]} ∪ Keep o; UseDefaults := UseDefaults o |}.

(** [void useDefaults(bool value = true) { UseDefaults = value; }] *)
Definition useDefaults (value : bool) (o : t) : t :=
  {| Skip := Skip o; Keep := Keep o; UseDefaults := value |}.

(** The store one call of [apply] runs in: the receiver and the set
    behind the reference parameter [c]. The members are private and no
    method hands out a reference to them, so [c] never aliases [Skip] or
    [Keep]. *)
Record Store : Type := mkStore {
  this : t;
  c : gset string
}.

(** Writing through the reference [c] leaves the receiver alone. *)
Definition set_c (s : gset string) (h : Store) : Store :=
  {| this := this h; c := s |}.

(** [c.clear()] *)
Definition clear (h : Store) : Store := set_c ∅ h.

(** [c.insert(s)] for one element. *)
Definition insert1 (h : Store) (s : string) : Store :=
  set_c ({[ s ]} ∪ c h) h.

(** [c.insert(first, last)]: one insertion per element of the range. *)
Definition insert_range (range : list string) (h : Store) : Store :=
  foldl insert1 h range.

(** [c.erase(s)] *)
Definition erase (h : Store) (s : string) : Store :=
  set_c (c h ∖ {[ s ]}) h.

(** The body of [apply], statement by statement:
<<
    if (!UseDefaults) { c.clear(); }
    c.insert(Skip.begin(), Skip.end());
    for (const std::string& s : Keep) { c.erase(s); }
>>
    The iteration order of an unordered set is unspecified; [elements]
    fixes one, and [apply_body_order] below shows the order is
    immaterial. *)
Definition apply_body (h : Store) : Store :=
  let h1 := if negb (UseDefaults (this h)) then clear h else h in
  let h2 := insert_range (elements (Skip (this h1))) h1 in
  foldl erase h2 (elements (Keep (this h2))).

(** [opt.apply(c)]: the contents of [c] after the call. *)
Definition apply (o : t) (base : gset string) : gset string :=
  c (apply_body {| this := o; c := base |}).

(** [n] calls in a row on the same object, each on a fresh copy of
    [base]; the object is threaded from one call to the next, and the
    results are collected, last call first. *)
Fixpoint apply_times (n : nat) (o : t) (base : gset string)
  : t * list (gset string) :=
  match n with
  | O => (o, [])
  | S n' =>
      let '(o', rs) := apply_times n' o base in
      let h := apply_body {| this := o'; c := base |} in
      (this h, c h :: rs)
  end.

(** The same body with the two iterations run over arbitrary
    enumerations of [Skip] and [Keep]. *)
Definition apply_body_with (sk kp : list string) (h : Store) : Store :=
  let h1 := if negb (UseDefaults (this h)) then clear h else h in
  foldl erase (insert_range sk h1) kp.

End PolicyOptions.

(** ** The default-syntax table

    [setDefaultSyntax] and [getDefaultSyntax] are declared on lines 86-93;
    their bodies are not part of the header. *)
Module TargetRegistry.

(** Modelled from the spec: the table behind [setDefaultSyntax] and
    [getDefaultSyntax], which the header only declares. Section 4.2 calls
    it a process-wide mutable table consulted by (format, isa): a finite
    map from the pair to the syntax. *)
Record t : Type := mk {
  defaultSyntaxes : gmap (string * string) string
}.

(** Modelled from the spec: the table at process start, before any
    registration call (section 3, lifecycle). *)
Definition initial : t := {| defaultSyntaxes := ∅ |}.

(** Modelled from the spec: [setDefaultSyntax(format, isa, syntax)], whose
    body is missing, records [syntax] for the pair, replacing what was
    recorded before. *)
Definition setDefaultSyntax (format isa syntax : string) (r : t) : t :=
  {| defaultSyntaxes := <[ (format, isa) := syntax ]> (defaultSyntaxes r) |}.

(** Modelled from the spec: [getDefaultSyntax(format, isa)], whose body is
    missing, reads the table and returns an optional syntax. *)
Definition getDefaultSyntax (format isa : string) (r : t) : option string :=
  defaultSyntaxes r !! (format, isa).

(** One call [setDefaultSyntax(format, isa, syntax)] in a history of the
    process. A registration with [isDefault] counts as the calls it makes
    (section 4.2). *)
Record SetCall : Type := Call {
  call_format : string;
  call_isa : string;
  call_syntax : string
}.

Definition step (r : t) (k : SetCall) : t :=
  setDefaultSyntax (call_format k) (call_isa k) (call_syntax k) r.

(** The table after a history of calls, oldest first. *)
Definition run (history : list SetCall) (r : t) : t := foldl step r history.

(** The call sets the default of the pair [(format, isa)]. *)
Definition sets (format isa : string) (k : SetCall) : Prop :=
  call_format k = format ∧ call_isa k = isa.

End TargetRegistry.

(** ** Function boundaries

    [getContainerFunctionName] is declared on lines 417-418 and documented
    on lines 405-416; [functionEntry] is the private [std::set<gtirb::Addr>]
    of line 447. *)
Module FunctionBoundaries.

(** [gtirb::Addr]: an unsigned 64-bit address; only its order is used. *)
Abbreviation Addr := N (only parsing).

(** [std::set<gtirb::Addr>]: the elements in strictly ascending order.
    [set_insert] is [std::set::insert]: it keeps the order and drops a
    value that is already present. *)
Fixpoint set_insert (x : Addr) (s : list Addr) : list Addr :=
  match s with
  | [] => [x]
  | y :: s' =>
      if (x <? y)%N then x :: y :: s'
      else if (x =? y)%N then y :: s'
      else y :: set_insert x s'
  end.

(** The set built from the addresses of a side table, inserted one by one
    (the header names the "functionEntry" AuxData table as the source). *)
Definition set_of (entries : list Addr) : list Addr :=
  foldl (λ s x, set_insert x s) [] entries.

(** Modelled from the spec: the ordered search of section 4.4, "find the
    greatest functionEntry value ≤ a". The body of
    [getContainerFunctionName] is not in the header. The walk goes up the
    ordered set, remembers the last entry that is at most [a] and stops at
    the first one above [a]. *)
Fixpoint greatest_entry_le (a : Addr) (best : option Addr) (s : list Addr)
  : option Addr :=
  match s with
  | [] => best
  | e :: s' =>
      if (e <=? a)%N then greatest_entry_le a (Some e) s' else best
  end.

(** The engine state the lookup reads: the [functionEntry] member and the
    virtual [getFunctionName] (line 430), the name of the symbol bound to
    an entry address. *)
Record Engine : Type := mkEngine {
  functionEntry : list Addr;
  getFunctionName : Addr → string
}.

(** The engine for a module whose side table lists [entries]. *)
Definition engine_of (entries : list Addr) (name : Addr → string) : Engine :=
  {| functionEntry := set_of entries; getFunctionName := name |}.

(** Modelled from the spec: the entry address of the function that
    contains [x], [None] when no entry is at or below [x]. *)
Definition containerFunctionEntry (pp : Engine) (x : Addr) : option Addr :=
  greatest_entry_le x None (functionEntry pp).

(** Modelled from the spec: [getContainerFunctionName], whose body is
    missing: "If no such entry exists, containment is none. Otherwise the
    containing function's name is the symbol bound to that entry
    address." *)
Definition getContainerFunctionName (pp : Engine) (x : Addr)
  : option string :=
  match containerFunctionEntry pp x with
  | Some e => Some (getFunctionName pp e)
  | None => None
  end.

End FunctionBoundaries.

(** ** Data blocks

    [printBlockContents], [printZeroDataBlock] and [printNonZeroDataBlock]
    are declared on lines 306-315, [printByte] on line 316; none has a body
    in the header. *)
Module DataBlocks.

(** The two shapes of a symbolic expression (section 3): symbol plus
    constant, and symbol minus symbol. *)
Inductive SymbolicExpression : Type :=
| SymAddrConst (sym : string) (offset : Z)
| SymAddrAddr (sym1 sym2 : string).

(** Modelled from the spec: a data block as the printer reads it, its
    bytes and the symbolic expressions attached at byte offsets inside it,
    each with the number of bytes it stands for
    ([getSymbolicExpressionSize], line 441). *)
Record DataBlock : Type := mkDataBlock {
  bytes : list Byte.byte;
  symbolicExpressions : gmap nat (SymbolicExpression * positive)
}.

(** What the printer emits for a data block, each item tagged with the
    offset it stands at. *)
Inductive Directive : Type :=
| Zeros (n : nat)
| ByteAt (offset : nat) (b : Byte.byte)
| SymbolicAt (offset : nat) (e : SymbolicExpression).

(** Every byte of the block is zero. *)
Definition allZero (blk : DataBlock) : bool :=
  forallb (Byte.eqb Byte.x00) (bytes blk).

(** No symbolic expression is attached inside the block. *)
Definition noSymbolic (blk : DataBlock) : bool :=
  forallb (λ off, bool_decide (symbolicExpressions blk !! off = None))
          (seq 0 (length (bytes blk))).

(** Modelled from the spec: [printZeroDataBlock], whose body is missing:
    "emit a single compressed reserve N zero bytes directive". *)
Definition printZeroDataBlock (os : list Directive) (blk : DataBlock)
  : list Directive :=
  os ++ [Zeros (length (bytes blk))].

(** Modelled from the spec: literal emission, "bytes are emitted in offset
    order, with symbolic-expression tokens substituted at their recorded
    offsets instead of their raw bytes". [covered] counts the bytes still
    standing under the symbolic expression emitted last; they are passed
    over, and so is an expression recorded at one of their offsets. *)
Fixpoint emitLiteral (syms : gmap nat (SymbolicExpression * positive))
    (off covered : nat) (bs : list Byte.byte) : list Directive :=
  match bs with
  | [] => []
  | b :: bs' =>
      match covered with
      | S k => emitLiteral syms (S off) k bs'
      | O =>
          match syms !! off with
          | Some (e, size) =>
              SymbolicAt off e
                :: emitLiteral syms (S off) (Pos.to_nat size - 1) bs'
          | None => ByteAt off b :: emitLiteral syms (S off) 0 bs'
          end
      end
  end.

(** Modelled from the spec: [printNonZeroDataBlock], whose body is
    missing: the whole block, literally. *)
Definition printNonZeroDataBlock (os : list Directive) (blk : DataBlock)
  : list Directive :=
  os ++ emitLiteral (symbolicExpressions blk) 0 0 (bytes blk).

(** Modelled from the spec: [printBlockContents] for a data block, whose
    body is missing: the compressed directive for a block with no non-zero
    byte and no symbolic expression, literal emission otherwise. *)
Definition printBlockContents (os : list Directive) (blk : DataBlock)
  : list Directive :=
  if allZero blk && noSymbolic blk
  then printZeroDataBlock os blk
  else printNonZeroDataBlock os blk.

(** The offset a literal item stands at. *)
Definition offsetOf (d : Directive) : nat :=
  match d with
  | Zeros _ => 0
  | ByteAt off _ => off
  | SymbolicAt off _ => off
  end.

Definition isZeros (d : Directive) : bool :=
  match d with Zeros _ => true | _ => false end.

(** What it means for a list of items to be the literal print of a block:
    no compressed directive; ascending offsets; a byte item carries the
    block's byte and stands where no expression is recorded; a symbolic
    item carries the expression recorded at its offset; every offset of
    the block is printed or stands under a printed symbolic expression;
    and no item stands under a printed symbolic expression past its first
    byte, so the bytes an expression stands for are not printed beside
    it. *)
Definition LiteralEmission (blk : DataBlock) (lit : list Directive) : Prop :=
  let n := length (bytes blk) in
  let syms := symbolicExpressions blk in
  Forall (λ d, isZeros d = false) lit
  ∧ StronglySorted lt (offsetOf <$> lit)
  ∧ (∀ o b, ByteAt o b ∈ lit → bytes blk !! o = Some b ∧ syms !! o = None)
  ∧ (∀ o e, SymbolicAt o e ∈ lit → o < n ∧ ∃ size, syms !! o = Some (e, size))
  ∧ (∀ o, o < n →
          (∃ b, ByteAt o b ∈ lit)
          ∨ (∃ o' e size, SymbolicAt o' e ∈ lit
                          ∧ syms !! o' = Some (e, size)
                          ∧ o' ≤ o < o' + Pos.to_nat size))
  ∧ (∀ o' e size d, SymbolicAt o' e ∈ lit → syms !! o' = Some (e, size) →
                    d ∈ lit → ¬ (o' < offsetOf d < o' + Pos.to_nat size)).

End DataBlocks.

(** ** Sequences of setter calls

    A client configures a [PolicyOptions] object by calling [skip], [keep]
    and [useDefaults] (lines 100-104) any number of times, in any order. *)
Module PolicySetters.
Import PolicyOptions.

(** One call of a setter. *)
Inductive Setter : Type :=
| CallSkip (s : string)
| CallKeep (s : string)
| CallUseDefaults (value : bool).

Definition call (o : t) (m : Setter) : t :=
  match m with
  | CallSkip s => skip s o
  | CallKeep s => keep s o
  | CallUseDefaults value => useDefaults value o
  end.

(** The object after the calls [ms], first call first. *)
Definition calls (ms : list Setter) (o : t) : t := foldl call o ms.

(** The names a sequence of calls passes to [skip]. *)
Definition skipped (ms : list Setter) : list string :=
  omap (λ m, match m with CallSkip s => Some s | _ => None end) ms.

(** The names a sequence of calls passes to [keep]. *)
Definition kept (ms : list Setter) : list string :=
  omap (λ m, match m with CallKeep s => Some s | _ => None end) ms.

(** The argument of the last [useDefaults] call, [initial] when there is
    none. *)
Definition lastUseDefaults (ms : list Setter) (initial : bool) : bool :=
  foldl (λ b m, match m with CallUseDefaults value => value | _ => b end)
        initial ms.

End PolicySetters.

(** ** [class PrettyPrinter]: the policy members and their accessors

    Lines 193-206 and 212-218: the four [PolicyOptions] members with their
    reference accessors, and [PolicyName] with its getter and setter. The
    other methods of the class are only declared. *)
Module PrettyPrinter.

(** [enum DebugStyle { NoDebug, DebugMessages }] (line 44). *)
Inductive DebugStyle : Type := NoDebug | DebugMessages.

(** The private members (lines 213-218). *)
Record t : Type := mk {
  m_format : string;
  m_isa : string;
  m_syntax : string;
  m_debug : DebugStyle;
  FunctionPolicy : PolicyOptions.t;
  SymbolPolicy : PolicyOptions.t;
  SectionPolicy : PolicyOptions.t;
  ArraySectionPolicy : PolicyOptions.t;
  PolicyName : string
}.

(** [PrettyPrinter() = default]: the strings are empty, the four options
    default-constructed, [PolicyName] is "default". [m_debug] has no
    initialiser, so its value is whatever the construction leaves there:
    a parameter. *)
Definition construct (debug : DebugStyle) : t :=
  {| m_format := ""; m_isa := ""; m_syntax := ""; m_debug := debug;
     FunctionPolicy := PolicyOptions.default;
     SymbolPolicy := PolicyOptions.default;
     SectionPolicy := PolicyOptions.default;
     ArraySectionPolicy := PolicyOptions.default;
     PolicyName := "default" |}.

(** The four accessor pairs [functionPolicy], [symbolPolicy],
    [sectionPolicy] and [arraySectionPolicy]. *)
Inductive Category : Type :=
| Functions | Symbols | Sections | ArraySections.

#[global] Instance Category_eq_dec : EqDecision Category.
Proof. solve_decision. Defined.

(** The [const] accessor: the member it returns a reference to. *)
Definition policy (k : Category) (pp : t) : PolicyOptions.t :=
  match k with
  | Functions => FunctionPolicy pp
  | Symbols => SymbolPolicy pp
  | Sections => SectionPolicy pp
  | ArraySections => ArraySectionPolicy pp
  end.

(** A call of a setter through the reference the non-[const] accessor
    returns, as in [pp.functionPolicy().skip(s)]: the member is replaced by
    what the setter leaves. *)
Definition through (k : Category) (f : PolicyOptions.t → PolicyOptions.t)
    (pp : t) : t :=
  match k with
  | Functions =>
      {| m_format := m_format pp; m_isa := m_isa pp; m_syntax := m_syntax pp;
         m_debug := m_debug pp;
         FunctionPolicy := f (FunctionPolicy pp);
         SymbolPolicy := SymbolPolicy pp;
         SectionPolicy := SectionPolicy pp;
         ArraySectionPolicy := ArraySectionPolicy pp;
         PolicyName := PolicyName pp |}
  | Symbols =>
      {| m_format := m_format pp; m_isa := m_isa pp; m_syntax := m_syntax pp;
         m_debug := m_debug pp;
         FunctionPolicy := FunctionPolicy pp;
         SymbolPolicy := f (SymbolPolicy pp);
         SectionPolicy := SectionPolicy pp;
         ArraySectionPolicy := ArraySectionPolicy pp;
         PolicyName := PolicyName pp |}
  | Sections =>
      {| m_format := m_format pp; m_isa := m_isa pp; m_syntax := m_syntax pp;
         m_debug := m_debug pp;
         FunctionPolicy := FunctionPolicy pp;
         SymbolPolicy := SymbolPolicy pp;
         SectionPolicy := f (SectionPolicy pp);
         ArraySectionPolicy := ArraySectionPolicy pp;
         PolicyName := PolicyName pp |}
  | ArraySections =>
      {| m_format := m_format pp; m_isa := m_isa pp; m_syntax := m_syntax pp;
         m_debug := m_debug pp;
         FunctionPolicy := FunctionPolicy pp;
         SymbolPolicy := SymbolPolicy pp;
         SectionPolicy := SectionPolicy pp;
         ArraySectionPolicy := f (ArraySectionPolicy pp);
         PolicyName := PolicyName pp |}
  end.

(** [std::string getPolicyName() const { return PolicyName; }] *)
Definition getPolicyName (pp : t) : string := PolicyName pp.

(** [void setPolicyName(const std::string& Name) { PolicyName = Name; }] *)
Definition setPolicyName (Name : string) (pp : t) : t :=
  {| m_format := m_format pp; m_isa := m_isa pp; m_syntax := m_syntax pp;
     m_debug := m_debug pp;
     FunctionPolicy := FunctionPolicy pp;
     SymbolPolicy := SymbolPolicy pp;
     SectionPolicy := SectionPolicy pp;
     ArraySectionPolicy := ArraySectionPolicy pp;
     PolicyName := Name |}.

(** One configuration call on a printer: a setter through one of the four
    accessors, or [setPolicyName]. *)
Inductive Command : Type :=
| Through (k : Category) (m : PolicySetters.Setter)
| SetPolicyName (Name : string).

Definition exec (pp : t) (cmd : Command) : t :=
  match cmd with
  | Through k m => through k (λ o, PolicySetters.call o m) pp
  | SetPolicyName Name => setPolicyName Name pp
  end.

(** The printer after the calls [cmds], first call first. *)
Definition configure (cmds : list Command) (pp : t) : t :=
  foldl exec pp cmds.

(** The setter calls of [cmds] that go through the accessor of [k]. *)
Definition settersOf (k : Category) (cmds : list Command)
  : list PolicySetters.Setter :=
  omap (λ cmd, match cmd with
               | Through k' m => if decide (k' = k) then Some m else None
               | SetPolicyName _ => None
               end) cmds.

(** The argument of the last [setPolicyName] call, [initial] when there
    is none. *)
Definition lastPolicyName (cmds : list Command) (initial : string) : string :=
  foldl (λ n cmd, match cmd with SetPolicyName Name => Name | _ => n end)
        initial cmds.

End PrettyPrinter.

(** * Properties *)

(** ** [PolicyOptions::apply] *)
Module PolicyOptionsFacts.
Import PolicyOptions.

Lemma insert_range_this range h : this (insert_range range h) = this h.
Proof.
  unfold insert_range. revert h.
  induction range as [|s range IH]; intros h; [done|].
  cbn [foldl]. by rewrite IH.
Qed.

Lemma erase_all_this ks h : this (foldl erase h ks) = this h.
Proof.
  revert h. induction ks as [|s ks IH]; intros h; [done|].
  cbn [foldl]. by rewrite IH.
Qed.

Lemma insert_range_c range h s :
  s ∈ c (insert_range range h) ↔ s ∈ range ∨ s ∈ c h.
Proof.
  unfold insert_range. revert h.
  induction range as [|x range IH]; intros h; cbn [foldl].
  - set_solver.
  - rewrite IH. cbn. set_solver.
Qed.

Lemma erase_all_c ks h s :
  s ∈ c (foldl erase h ks) ↔ s ∈ c h ∧ s ∉ ks.
Proof.
  revert h. induction ks as [|x ks IH]; intros h; cbn [foldl].
  - set_solver.
  - rewrite IH. cbn. set_solver.
Qed.

Lemma apply_body_this h : this (apply_body h) = this h.
Proof.
  unfold apply_body. rewrite erase_all_this, insert_range_this.
  by destruct (UseDefaults (this h)).
Qed.

Lemma apply_body_c h :
  c (apply_body h)
  = ((if UseDefaults (this h) then c h else ∅) ∪ Skip (this h))
      ∖ Keep (this h).
Proof.
  apply set_eq. intros s. unfold apply_body.
  rewrite insert_range_this, erase_all_c, insert_range_c.
  rewrite !elem_of_elements.
  destruct (UseDefaults (this h)); cbn; set_solver.
Qed.

Lemma apply_unfold o base :
  apply o base = ((if UseDefaults o then base else ∅) ∪ Skip o) ∖ Keep o.
Proof. unfold apply. by rewrite apply_body_c. Qed.

(** The order in which the two loops enumerate [Skip] and [Keep] does not
    show in the result. *)
Lemma apply_body_order sk kp h :
  sk ≡ₚ elements (Skip (this h)) →
  kp ≡ₚ elements (Keep (this h)) →
  apply_body_with sk kp h = apply_body h.
Proof.
  intros Hsk Hkp.
  assert (Hthis : this (apply_body_with sk kp h) = this (apply_body h)).
  { rewrite apply_body_this. unfold apply_body_with.
    rewrite erase_all_this, insert_range_this.
    by destruct (UseDefaults (this h)). }
  assert (Hc : c (apply_body_with sk kp h) = c (apply_body h)).
  { apply set_eq. intros s. rewrite apply_body_c. unfold apply_body_with.
    rewrite erase_all_c, insert_range_c, Hsk, Hkp, !elem_of_elements.
    destruct (UseDefaults (this h)); cbn; set_solver. }
  destruct (apply_body_with sk kp h), (apply_body h); cbn in *; congruence.
Qed.

(** C1. For every policy option and every base set, [apply] yields the base
    (cleared first when [UseDefaults] is false) with every name of [Skip]
    added and then every name of [Keep] removed. A name in both [Skip] and
    [Keep] is therefore absent from the result; {skip:{a}, keep:{},
    useDefaults:false} on {a,b} gives {a}, and {skip:{}, keep:{a},
    useDefaults:true} on {a,b} gives {b}. *)
Theorem apply_clear_union_subtract :
  (∀ (o : t) (base : gset string),
     apply o base
     = ((if UseDefaults o then base else ∅) ∪ Skip o) ∖ Keep o)
  ∧ (∀ (o : t) (base : gset string) (s : string),
       s ∈ Skip o → s ∈ Keep o → s ∉ apply o base)
  ∧ apply {| Skip := {[ "a" ]}; Keep := ∅; UseDefaults := false |}
          {[ "a"; "b" ]} = {[ "a" ]}
  ∧ apply {| Skip := ∅; Keep := {[ "a" ]}; UseDefaults := true |}
          {[ "a"; "b" ]} = {[ "b" ]}.
Proof.
  split; [exact apply_unfold|].
  split; [intros o base s _ Hk; rewrite apply_unfold; set_solver|].
  split; rewrite apply_unfold; cbn; set_solver.
Qed.

(** C8. [apply] is a [const] method: a call leaves the receiver's [Skip],
    [Keep] and [UseDefaults] as they were, so any number of calls of the
    same option on equal base sets all give the same result. *)
Theorem apply_leaves_option_unchanged :
  (∀ h : Store,
     Skip (this (apply_body h)) = Skip (this h)
     ∧ Keep (this (apply_body h)) = Keep (this h)
     ∧ UseDefaults (this (apply_body h)) = UseDefaults (this h))
  ∧ (∀ (n : nat) (o : t) (base : gset string),
       apply_times n o base = (o, replicate n (apply o base))).
Proof.
  split.
  - intros h. by rewrite apply_body_this.
  - intros n o base. induction n as [|n IH]; [done|].
    cbn [apply_times replicate]. rewrite IH.
    by rewrite apply_body_this.
Qed.

(** C10. A default-constructed option has an empty [Skip], an empty
    [Keep] and [UseDefaults] true; applying it to any base set returns that
    set: the base is not cleared, nothing is added and nothing removed. *)
Theorem apply_default_identity :
  Skip default = ∅ ∧ Keep default = ∅ ∧ UseDefaults default = true
  ∧ ∀ base : gset string, apply default base = base.
Proof.
  split; [done|]. split; [done|]. split; [done|].
  intros base. rewrite apply_unfold. cbn. set_solver.
Qed.

(** The three setters, seen through [apply]. *)
Lemma apply_after_skip s o base :
  s ∉ Keep o → s ∈ apply (skip s o) base.
Proof. intros Hk. rewrite apply_unfold. cbn. set_solver. Qed.

Lemma apply_after_keep s o base : s ∉ apply (keep s o) base.
Proof. rewrite apply_unfold. cbn. set_solver. Qed.

Lemma apply_without_defaults o base :
  apply (useDefaults false o) base = Skip o ∖ Keep o.
Proof. rewrite apply_unfold. cbn. set_solver. Qed.

(** A second application changes nothing more. *)
Lemma apply_idempotent o base : apply o (apply o base) = apply o base.
Proof. rewrite !apply_unfold. destruct (UseDefaults o); set_solver. Qed.

End PolicyOptionsFacts.

(** ** The default-syntax table *)
Module TargetRegistryFacts.
Import TargetRegistry.

Lemma get_after_set format isa syntax r :
  getDefaultSyntax format isa (setDefaultSyntax format isa syntax r)
  = Some syntax.
Proof. unfold getDefaultSyntax, setDefaultSyntax. cbn. apply lookup_insert_eq. Qed.

Lemma get_after_other_set format isa format' isa' syntax r :
  ¬ (format' = format ∧ isa' = isa) →
  getDefaultSyntax format isa (setDefaultSyntax format' isa' syntax r)
  = getDefaultSyntax format isa r.
Proof.
  intros Hne. unfold getDefaultSyntax, setDefaultSyntax. cbn.
  apply lookup_insert_ne. intros [= -> ->]. by apply Hne.
Qed.

Lemma run_app h1 h2 r : run (h1 ++ h2) r = run h2 (run h1 r).
Proof. unfold run. apply foldl_app. Qed.

(** Calls for other pairs leave the entry of [(format, isa)] as it was. *)
Lemma run_untouched format isa history r :
  Forall (λ k, ¬ sets format isa k) history →
  getDefaultSyntax format isa (run history r) = getDefaultSyntax format isa r.
Proof.
  unfold run. intros Hall. revert r.
  induction Hall as [|k history Hk _ IH]; intros r; [done|].
  cbn [foldl]. rewrite IH. unfold step.
  apply get_after_other_set. exact Hk.
Qed.

Example set_twice_then_get :
  let r := run [Call "elf" "x64" "att"; Call "pe" "x86" "masm";
                Call "elf" "x64" "intel"] initial in
  getDefaultSyntax "elf" "x64" r = Some "intel"
  ∧ getDefaultSyntax "pe" "x86" r = Some "masm"
  ∧ getDefaultSyntax "elf" "arm" r = None.
Proof. cbv zeta. split; [|split]; vm_compute; reflexivity. Qed.

(** C9. After [setDefaultSyntax(f, i, s)], [getDefaultSyntax(f, i)]
    returns [s]: in any state of the table, and, over a whole history,
    whatever later calls set other pairs, so the value read is the one set
    most recently for the pair. For a pair no call of the history has set,
    [getDefaultSyntax] returns the empty optional. *)
Theorem default_syntax_get_set :
  (∀ (r : t) (f i s : string),
     getDefaultSyntax f i (setDefaultSyntax f i s r) = Some s)
  ∧ (∀ (before after : list SetCall) (f i s : string),
       Forall (λ k, ¬ sets f i k) after →
       getDefaultSyntax f i (run (before ++ Call f i s :: after) initial)
       = Some s)
  ∧ (∀ (history : list SetCall) (f i : string),
       Forall (λ k, ¬ sets f i k) history →
       getDefaultSyntax f i (run history initial) = None).
Proof.
  split; [|split].
  - intros r f i s. apply get_after_set.
  - intros before after f i s Hafter.
    rewrite run_app. change (run (Call f i s :: after) ?r)
      with (run after (setDefaultSyntax f i s r)).
    rewrite (run_untouched _ _ _ _ Hafter). apply get_after_set.
  - intros history f i Hnever.
    rewrite (run_untouched _ _ _ _ Hnever).
    unfold getDefaultSyntax, initial. cbn. apply lookup_empty.
Qed.

End TargetRegistryFacts.

(** ** Function containment *)
Module FunctionBoundariesFacts.
Import FunctionBoundaries.

Local Open Scope N_scope.

Lemma elem_of_set_insert (x y : Addr) (s : list Addr) :
  y ∈ set_insert x s ↔ y = x ∨ y ∈ s.
Proof.
  induction s as [|z s IH]; cbn [set_insert].
  - rewrite list_elem_of_singleton. set_solver.
  - destruct (N.ltb_spec x z) as [Hlt|Hge].
    + rewrite !elem_of_cons. tauto.
    + destruct (N.eqb_spec x z) as [->|Hne].
      * rewrite !elem_of_cons. tauto.
      * rewrite !elem_of_cons, IH. tauto.
Qed.

Lemma set_insert_sorted (x : Addr) (s : list Addr) :
  StronglySorted N.lt s → StronglySorted N.lt (set_insert x s).
Proof.
  induction 1 as [|z s Hs IH Hz]; cbn [set_insert].
  - repeat constructor.
  - destruct (N.ltb_spec x z) as [Hlt|Hge].
    + constructor; [by constructor|].
      constructor; [done|].
      eapply Forall_impl; [exact Hz|]. cbn. intros; lia.
    + destruct (N.eqb_spec x z) as [->|Hne]; [by constructor|].
      constructor; [done|].
      apply Forall_forall. intros y Hy.
      apply elem_of_set_insert in Hy as [->|Hy]; [lia|].
      rewrite Forall_forall in Hz. by apply Hz.
Qed.

Lemma foldl_insert_sorted (entries s : list Addr) :
  StronglySorted N.lt s →
  StronglySorted N.lt (foldl (λ s x, set_insert x s) s entries).
Proof.
  revert s. induction entries as [|x entries IH]; intros s Hs; [done|].
  cbn [foldl]. apply IH. by apply set_insert_sorted.
Qed.

Lemma elem_of_foldl_insert (entries s : list Addr) (y : Addr) :
  y ∈ foldl (λ s x, set_insert x s) s entries ↔ y ∈ entries ∨ y ∈ s.
Proof.
  revert s. induction entries as [|x entries IH]; intros s; cbn [foldl].
  - set_solver.
  - rewrite IH, elem_of_set_insert, elem_of_cons. tauto.
Qed.

(** The [std::set] invariant: ascending, no duplicates. *)
Lemma set_of_sorted entries : StronglySorted N.lt (set_of entries).
Proof. apply foldl_insert_sorted. constructor. Qed.

Lemma elem_of_set_of entries y : y ∈ set_of entries ↔ y ∈ entries.
Proof. unfold set_of. rewrite elem_of_foldl_insert. set_solver. Qed.

(** The ordered search, started with a candidate [best] that lies at or
    below [a] and below every element still to visit. *)
Lemma greatest_entry_le_spec (a : Addr) (s : list Addr) :
  StronglySorted N.lt s →
  ∀ best : option Addr,
    (∀ b, best = Some b → b ≤ a ∧ ∀ e, e ∈ s → b < e) →
    match greatest_entry_le a best s with
    | Some r =>
        (best = Some r ∨ r ∈ s) ∧ r ≤ a ∧ ∀ e, e ∈ s → e ≤ a → e ≤ r
    | None => best = None ∧ ∀ e, e ∈ s → a < e
    end.
Proof.
  induction 1 as [|z s Hs IH Hz]; intros best Hbest; cbn [greatest_entry_le].
  - destruct best as [b|].
    + destruct (Hbest b eq_refl) as [Hb _].
      split; [by left|]. split; [done|]. intros e He. inversion He.
    + split; [done|]. intros e He. inversion He.
  - rewrite Forall_forall in Hz.
    destruct (N.leb_spec z a) as [Hle|Hgt].
    + assert (Hpre : ∀ b, Some z = Some b → b ≤ a ∧ ∀ e, e ∈ s → b < e).
      { intros b [= <-]. split; [done|]. intros e He. by apply Hz. }
      specialize (IH (Some z) Hpre).
      destruct (greatest_entry_le a (Some z) s) as [r|]; lazy beta iota.
      * destruct IH as (Hr & Hra & Hmax).
        split; [|split; [done|]].
        -- right. destruct Hr as [[= ->]|Hr]; [left|by right].
        -- intros e He Hea. apply elem_of_cons in He as [->|He].
           ++ destruct Hr as [[= ->]|Hr]; [lia|].
              apply Hz in Hr. lia.
           ++ by apply Hmax.
      * by destruct IH as [Hnone _].
    + assert (Hall : ∀ e, e ∈ z :: s → a < e).
      { intros e He. apply elem_of_cons in He as [->|He]; [done|].
        apply Hz in He. lia. }
      destruct best as [b|]; lazy beta iota.
      * destruct (Hbest b eq_refl) as [Hb _].
        split; [by left|]. split; [done|].
        intros e He Hea. apply Hall in He. lia.
      * by split.
Qed.

Lemma containerFunctionEntry_spec entries name (a : Addr) :
  match containerFunctionEntry (engine_of entries name) a with
  | Some r => r ∈ entries ∧ r ≤ a ∧ ∀ e, e ∈ entries → e ≤ a → e ≤ r
  | None => ∀ e, e ∈ entries → a < e
  end.
Proof.
  unfold containerFunctionEntry, engine_of. cbn [functionEntry].
  pose proof (greatest_entry_le_spec a (set_of entries)
                (set_of_sorted entries) None) as H.
  assert (Hpre : ∀ b, None = Some b
                      → b ≤ a ∧ ∀ e, e ∈ set_of entries → b < e) by done.
  specialize (H Hpre).
  destruct (greatest_entry_le a None (set_of entries)) as [r|].
  - destruct H as (Hr & Hra & Hmax).
    destruct Hr as [?|Hr]; [done|].
    split; [by apply elem_of_set_of|]. split; [done|].
    intros e He. apply Hmax. by apply elem_of_set_of.
  - destruct H as [_ H].
    intros e He. apply H. by apply elem_of_set_of.
Qed.

Lemma containerFunctionEntry_iff entries name (a e : Addr) :
  containerFunctionEntry (engine_of entries name) a = Some e
  ↔ e ∈ entries ∧ e ≤ a ∧ ∀ e', e' ∈ entries → e' ≤ a → e' ≤ e.
Proof.
  pose proof (containerFunctionEntry_spec entries name a) as H.
  destruct (containerFunctionEntry (engine_of entries name) a) as [r|].
  - destruct H as (Hr & Hra & Hmax). split.
    + by intros [= <-].
    + intros (He & Hea & Hemax). f_equal.
      specialize (Hmax e He Hea). specialize (Hemax r Hr Hra). lia.
  - split; [done|]. intros (He & Hea & _). apply H in He. lia.
Qed.

(** A module with entries at 16, 32 and 64, listed out of order and with
    a repeat. *)
Example entries_as_set : set_of [32; 16; 64; 32] = [16; 32; 64].
Proof. vm_compute. reflexivity. Qed.

Example lookup_inside_and_outside :
  let pp := engine_of [32; 16; 64; 32]
              (λ a, if a =? 16 then "f" else if a =? 32 then "g" else "h")
  in
  getContainerFunctionName pp 15 = None
  ∧ getContainerFunctionName pp 16 = Some "f"
  ∧ getContainerFunctionName pp 31 = Some "f"
  ∧ getContainerFunctionName pp 32 = Some "g"
  ∧ getContainerFunctionName pp 64 = Some "h"
  ∧ getContainerFunctionName pp 4096 = Some "h".
Proof. cbv zeta. repeat split; vm_compute; reflexivity. Qed.

(** C3. The lookup returns the name of the function whose entry is the
    greatest [functionEntry] value at or below the address. An address
    below every entry (in particular with no entry at all) has no
    containing function; an address that is an entry resolves to that
    function; an address at or past the last entry resolves to the last
    function. *)
Theorem container_function_is_greatest_entry_below :
  ∀ (entries : list Addr) (name : Addr → string) (a : Addr),
    let pp := engine_of entries name in
    (∀ e, containerFunctionEntry pp a = Some e
          ↔ e ∈ entries ∧ e ≤ a ∧ ∀ e', e' ∈ entries → e' ≤ a → e' ≤ e)
    ∧ getContainerFunctionName pp a = name <$> containerFunctionEntry pp a
    ∧ ((∀ e, e ∈ entries → a < e) → getContainerFunctionName pp a = None)
    ∧ getContainerFunctionName (engine_of [] name) a = None
    ∧ (a ∈ entries → getContainerFunctionName pp a = Some (name a))
    ∧ (∀ last, last ∈ entries → (∀ e, e ∈ entries → e ≤ last) →
               last ≤ a → getContainerFunctionName pp a = Some (name last)).
Proof.
  intros entries name a pp.
  assert (Hname : getContainerFunctionName pp a
                  = name <$> containerFunctionEntry pp a).
  { unfold getContainerFunctionName.
    by destruct (containerFunctionEntry pp a). }
  split; [intros e; apply containerFunctionEntry_iff|].
  split; [exact Hname|].
  split; [|split; [done|split]].
  - intros Hbelow. rewrite Hname.
    pose proof (containerFunctionEntry_spec entries name a) as H.
    fold pp in H. destruct (containerFunctionEntry pp a) as [r|]; [|done].
    destruct H as (Hr & Hra & _). apply Hbelow in Hr. lia.
  - intros Ha. rewrite Hname.
    assert (containerFunctionEntry pp a = Some a) as ->; [|done].
    apply containerFunctionEntry_iff. split; [done|]. split; [lia|done].
  - intros last Hlast Hmax Hla. rewrite Hname.
    assert (containerFunctionEntry pp a = Some last) as ->; [|done].
    apply containerFunctionEntry_iff. split; [done|]. split; [done|].
    intros e' He' _. by apply Hmax.
Qed.

End FunctionBoundariesFacts.

(** ** Data-block printing *)
Module DataBlocksFacts.
Import DataBlocks.

Section Literal.
Variable syms : gmap nat (SymbolicExpression * positive).

Lemma emitLiteral_no_zeros off covered bs :
  Forall (λ d, isZeros d = false) (emitLiteral syms off covered bs).
Proof.
  revert off covered.
  induction bs as [|b bs IH]; intros off covered; cbn [emitLiteral].
  - constructor.
  - destruct covered as [|k]; [|apply IH].
    destruct (syms !! off) as [[e size]|]; constructor; (done || apply IH).
Qed.

(** Every item stands at an offset of the part still to print, past the
    bytes the last symbolic expression covers. *)
Lemma emitLiteral_offsets off covered bs d :
  d ∈ emitLiteral syms off covered bs →
  off + covered ≤ offsetOf d < off + length bs.
Proof.
  revert off covered.
  induction bs as [|b bs IH]; intros off covered; cbn [emitLiteral length].
  - intros H. inversion H.
  - destruct covered as [|k].
    + destruct (syms !! off) as [[e size]|];
        intros [->|H%IH]%elem_of_cons; cbn [offsetOf]; lia.
    + intros H%IH. lia.
Qed.

Lemma emitLiteral_sorted off covered bs :
  StronglySorted lt (offsetOf <$> emitLiteral syms off covered bs).
Proof.
  revert off covered.
  induction bs as [|b bs IH]; intros off covered; cbn [emitLiteral].
  - constructor.
  - destruct covered as [|k]; [|apply IH].
    destruct (syms !! off) as [[e size]|]; cbn [fmap list_fmap offsetOf];
      (constructor; [apply IH|]);
      apply Forall_forall; intros o (d & -> & Hd)%list_elem_of_fmap;
      apply emitLiteral_offsets in Hd; lia.
Qed.

Lemma emitLiteral_byte off covered bs o b :
  ByteAt o b ∈ emitLiteral syms off covered bs →
  off ≤ o ∧ bs !! (o - off) = Some b ∧ syms !! o = None.
Proof.
  revert off covered.
  induction bs as [|x bs IH]; intros off covered; cbn [emitLiteral].
  - intros H. inversion H.
  - assert (Hrec : ∀ k, ByteAt o b ∈ emitLiteral syms (S off) k bs →
                        off ≤ o ∧ (x :: bs) !! (o - off) = Some b
                        ∧ syms !! o = None).
    { intros k (Ho & Hb & Hs)%IH. split; [lia|]. split; [|done].
      replace (o - off) with (S (o - S off)) by lia. exact Hb. }
    destruct covered as [|k]; [|apply Hrec].
    destruct (syms !! off) as [[e size]|] eqn:Hoff.
    + intros [Heq|H]%elem_of_cons; [discriminate Heq|].
      by apply (Hrec _ H).
    + intros [Heq|H]%elem_of_cons; [|by apply (Hrec _ H)].
      injection Heq as -> ->. split; [lia|].
      rewrite Nat.sub_diag. by split.
Qed.

Lemma emitLiteral_symbolic off covered bs o e :
  SymbolicAt o e ∈ emitLiteral syms off covered bs →
  ∃ size, syms !! o = Some (e, size).
Proof.
  revert off covered.
  induction bs as [|x bs IH]; intros off covered; cbn [emitLiteral].
  - intros H. inversion H.
  - destruct covered as [|k]; [|apply IH].
    destruct (syms !! off) as [[e' size]|] eqn:Hoff.
    + intros [Heq|H]%elem_of_cons; [|by apply (IH _ _ H)].
      injection Heq as -> ->. by exists size.
    + intros [Heq|H]%elem_of_cons; [discriminate Heq|].
      by apply (IH _ _ H).
Qed.

(** Every offset of the part still to print is accounted for: its byte is
    printed, or it lies under a symbolic expression that is. *)
Lemma emitLiteral_covers off covered bs o :
  off + covered ≤ o < off + length bs →
  (∃ b, ByteAt o b ∈ emitLiteral syms off covered bs)
  ∨ (∃ o' e size, SymbolicAt o' e ∈ emitLiteral syms off covered bs
                  ∧ syms !! o' = Some (e, size)
                  ∧ o' ≤ o < o' + Pos.to_nat size).
Proof.
  revert off covered.
  induction bs as [|x bs IH]; intros off covered; cbn [emitLiteral length].
  - lia.
  - intros Ho. destruct covered as [|k]; [|apply IH; lia].
    destruct (syms !! off) as [[e size]|] eqn:Hoff.
    + destruct (decide (o < off + Pos.to_nat size)) as [Hin|Hout].
      * right. exists off, e, size. split; [left|]. split; [done|lia].
      * destruct (IH (S off) (Pos.to_nat size - 1)) as [[b Hb]|Hs]; [lia|..].
        -- left. exists b. by right.
        -- right. destruct Hs as (o' & e' & size' & Hin & Hrest).
           exists o', e', size'. split; [by right|done].
    + destruct (decide (o = off)) as [->|Hne].
      * left. exists x. left.
      * destruct (IH (S off) 0) as [[b Hb]|Hs]; [lia|..].
        -- left. exists b. by right.
        -- right. destruct Hs as (o' & e' & size' & Hin & Hrest).
           exists o', e', size'. split; [by right|done].
Qed.

(** The bytes a printed symbolic expression stands for are not printed
    beside it: no item stands under it past its first byte. *)
Lemma emitLiteral_nothing_under_symbolic off covered bs o' e size d :
  SymbolicAt o' e ∈ emitLiteral syms off covered bs →
  syms !! o' = Some (e, size) →
  d ∈ emitLiteral syms off covered bs →
  ¬ (o' < offsetOf d < o' + Pos.to_nat size).
Proof.
  revert off covered.
  induction bs as [|x bs IH]; intros off covered; cbn [emitLiteral].
  - intros H. inversion H.
  - destruct covered as [|k]; [|apply IH].
    destruct (syms !! off) as [[e0 size0]|] eqn:Hoff.
    + intros [Heq|Hs]%elem_of_cons Hsz [->|Hd]%elem_of_cons.
      * injection Heq as -> ->. cbn [offsetOf]. lia.
      * injection Heq as -> ->. rewrite Hoff in Hsz. injection Hsz as <-.
        apply emitLiteral_offsets in Hd. lia.
      * apply emitLiteral_offsets in Hs. cbn [offsetOf] in *. lia.
      * by apply (IH _ _ Hs Hsz Hd).
    + intros [Heq|Hs]%elem_of_cons Hsz [->|Hd]%elem_of_cons;
        try discriminate Heq.
      * apply emitLiteral_offsets in Hs. cbn [offsetOf] in *. lia.
      * by apply (IH _ _ Hs Hsz Hd).
Qed.

(** With no symbolic expression in the way, the bytes come out one by one. *)
Lemma emitLiteral_bytes off bs :
  (∀ o, off ≤ o < off + length bs → syms !! o = None) →
  emitLiteral syms off 0 bs = imap (λ i b, ByteAt (off + i) b) bs.
Proof.
  revert off. induction bs as [|x bs IH]; intros off Hnone; [done|].
  cbn [emitLiteral length] in *. rewrite (Hnone off) by lia.
  rewrite imap_cons, Nat.add_0_r. f_equal.
  rewrite IH by (intros o Ho; apply Hnone; lia).
  apply imap_ext. intros i b _. cbn. f_equal. lia.
Qed.

End Literal.

Lemma allZero_true blk :
  allZero blk = true ↔ ∀ b, b ∈ bytes blk → b = Byte.x00.
Proof.
  unfold allZero. rewrite forallb_forall. split.
  - intros H b Hb%list_elem_of_In. symmetry. apply Byte.byte_dec_bl. by apply H.
  - intros H b Hb%list_elem_of_In. rewrite (H b Hb). done.
Qed.

Lemma noSymbolic_true blk :
  noSymbolic blk = true
  ↔ ∀ off, off < length (bytes blk) → symbolicExpressions blk !! off = None.
Proof.
  unfold noSymbolic. rewrite forallb_forall. split.
  - intros H off Hoff. eapply bool_decide_eq_true_1.
    apply H, in_seq. lia.
  - intros H off Hoff%in_seq. apply bool_decide_eq_true_2. apply H. lia.
Qed.

Lemma printBlockContents_zero os blk :
  allZero blk = true → noSymbolic blk = true →
  printBlockContents os blk = os ++ [Zeros (length (bytes blk))].
Proof. intros Hz Hs. unfold printBlockContents. by rewrite Hz, Hs. Qed.

Lemma printBlockContents_literal os blk :
  allZero blk && noSymbolic blk = false →
  printBlockContents os blk
  = os ++ emitLiteral (symbolicExpressions blk) 0 0 (bytes blk).
Proof. intros H. unfold printBlockContents. by rewrite H. Qed.

(** A block of three zero bytes, and the same block with its middle byte
    set to one. *)
Example three_zero_bytes :
  printBlockContents []
    {| bytes := [Byte.x00; Byte.x00; Byte.x00]; symbolicExpressions := ∅ |}
  = [Zeros 3].
Proof. vm_compute. reflexivity. Qed.

Example one_byte_set :
  printBlockContents []
    {| bytes := [Byte.x00; Byte.x01; Byte.x00]; symbolicExpressions := ∅ |}
  = [ByteAt 0 Byte.x00; ByteAt 1 Byte.x01; ByteAt 2 Byte.x00].
Proof. vm_compute. reflexivity. Qed.

(** Eight zero bytes with a four-byte symbolic expression at offset 2. *)
Example symbolic_in_zero_run :
  printBlockContents []
    {| bytes := replicate 8 Byte.x00;
       symbolicExpressions := {[ 2 := (SymAddrConst "f" 0, 4%positive) ]} |}
  = [ByteAt 0 Byte.x00; ByteAt 1 Byte.x00; SymbolicAt 2 (SymAddrConst "f" 0);
     ByteAt 6 Byte.x00; ByteAt 7 Byte.x00].
Proof. vm_compute. reflexivity. Qed.

(** The literal print of a block is a literal emission of it. *)
Lemma emitLiteral_is_literal blk :
  LiteralEmission blk (emitLiteral (symbolicExpressions blk) 0 0 (bytes blk)).
Proof.
  unfold LiteralEmission. cbv zeta.
  split; [apply emitLiteral_no_zeros|].
  split; [apply emitLiteral_sorted|].
  split; [|split; [|split]].
  - intros o b (_ & Hb & Hs)%emitLiteral_byte.
    by rewrite Nat.sub_0_r in Hb.
  - intros o e He. split.
    + apply emitLiteral_offsets in He. cbn [offsetOf] in He. lia.
    + by apply emitLiteral_symbolic in He.
  - intros o Ho. apply emitLiteral_covers. lia.
  - intros o' e size d. apply emitLiteral_nothing_under_symbolic.
Qed.

(** Two items of literal emissions of one block that stand at the same
    offset are the same item. *)
Lemma literal_item_determined blk lit lit' d d' :
  LiteralEmission blk lit → LiteralEmission blk lit' →
  d ∈ lit → d' ∈ lit' → offsetOf d = offsetOf d' → d = d'.
Proof.
  intros (Hz & _ & Hb & Hs & _) (Hz' & _ & Hb' & Hs' & _) Hd Hd' Hoff.
  rewrite Forall_forall in Hz, Hz'.
  destruct d as [n|o b|o e]; [by apply Hz in Hd|..];
    (destruct d' as [n'|o' b'|o' e']; [by apply Hz' in Hd'|..]);
    cbn [offsetOf] in Hoff; subst o'.
  - destruct (Hb _ _ Hd) as [H1 _], (Hb' _ _ Hd') as [H2 _]. congruence.
  - destruct (Hb _ _ Hd) as [_ H1], (Hs' _ _ Hd') as [_ [size H2]].
    congruence.
  - destruct (Hs _ _ Hd) as [_ [size H1]], (Hb' _ _ Hd') as [_ H2].
    congruence.
  - destruct (Hs _ _ Hd) as [_ [size H1]], (Hs' _ _ Hd') as [_ [size' H2]].
    congruence.
Qed.

Lemma literal_item_in_block blk lit d :
  LiteralEmission blk lit → d ∈ lit → offsetOf d < length (bytes blk).
Proof.
  intros (Hz & _ & Hb & Hs & _) Hd. rewrite Forall_forall in Hz.
  destruct d as [n|o b|o e]; [by apply Hz in Hd|..]; cbn [offsetOf].
  - destruct (Hb _ _ Hd) as [H _]. by apply lookup_lt_Some in H.
  - by destruct (Hs _ _ Hd).
Qed.

(** An item of one literal emission is in the other, once the other's
    items at lower offsets are known to be in the first. *)
Lemma literal_item_transfer blk lit lit' d :
  LiteralEmission blk lit → LiteralEmission blk lit' →
  (∀ d', offsetOf d' < offsetOf d → d' ∈ lit' → d' ∈ lit) →
  d ∈ lit → d ∈ lit'.
Proof.
  intros HL HL' Hlow Hd.
  pose proof (literal_item_in_block _ _ _ HL Hd) as Hn.
  pose proof HL' as (Hz' & Hsort' & Hb' & Hs' & Hcov' & Hin').
  destruct (Hcov' _ Hn) as [[b Hbyte]|(o' & e & size & Hsym & Hsz & Hrange)].
  - assert (d = ByteAt (offsetOf d) b) as ->; [|done].
    by apply (literal_item_determined blk lit lit' _ _ HL HL' Hd Hbyte).
  - destruct (decide (o' = offsetOf d)) as [->|Hne].
    + assert (d = SymbolicAt (offsetOf d) e) as ->; [|done].
      by apply (literal_item_determined blk lit lit' _ _ HL HL' Hd Hsym).
    + exfalso.
      assert (Hsym_lit : SymbolicAt o' e ∈ lit).
      { apply Hlow; [cbn [offsetOf]; lia|done]. }
      destruct HL as (_ & _ & _ & _ & _ & Hin).
      apply (Hin _ _ _ _ Hsym_lit Hsz Hd). lia.
Qed.

Lemma literal_same_items blk lit lit' :
  LiteralEmission blk lit → LiteralEmission blk lit' →
  ∀ d, d ∈ lit ↔ d ∈ lit'.
Proof.
  intros HL HL'.
  assert (H : ∀ o d, offsetOf d = o → (d ∈ lit ↔ d ∈ lit')).
  { intros o. induction (lt_wf o) as [o _ IH]. intros d Hd. split.
    - apply (literal_item_transfer blk lit lit' d HL HL').
      intros d' Hlt. apply (IH (offsetOf d')); [lia|done].
    - apply (literal_item_transfer blk lit' lit d HL' HL).
      intros d' Hlt. apply (IH (offsetOf d')); [lia|done]. }
  intros d. by apply (H (offsetOf d)).
Qed.

(** Lists in strictly ascending offset order with the same items are the
    same list. *)
Lemma ascending_same_items (l l' : list Directive) :
  StronglySorted lt (offsetOf <$> l) →
  StronglySorted lt (offsetOf <$> l') →
  (∀ d, d ∈ l ↔ d ∈ l') → l = l'.
Proof.
  revert l'. induction l as [|x l IH]; intros l' Hl Hl' Hsame.
  - destruct l' as [|y l']; [done|].
    exfalso. eapply not_elem_of_nil, Hsame. left.
  - destruct l' as [|y l'].
    { exfalso. eapply not_elem_of_nil, Hsame. left. }
    cbn [fmap list_fmap] in Hl, Hl'.
    apply StronglySorted_inv in Hl as [Hl Hx].
    apply StronglySorted_inv in Hl' as [Hl' Hy].
    rewrite Forall_forall in Hx, Hy.
    assert (Hlt : ∀ d, d ∈ l → offsetOf x < offsetOf d).
    { intros d Hd. apply Hx, list_elem_of_fmap. by exists d. }
    assert (Hlt' : ∀ d, d ∈ l' → offsetOf y < offsetOf d).
    { intros d Hd. apply Hy, list_elem_of_fmap. by exists d. }
    assert (x = y) as <-.
    { assert (Hxin : x ∈ y :: l') by (apply Hsame; left).
      assert (Hyin : y ∈ x :: l) by (apply Hsame; left).
      apply elem_of_cons in Hxin as [?|Hxin]; [done|].
      apply elem_of_cons in Hyin as [?|Hyin]; [done|].
      apply Hlt' in Hxin. apply Hlt in Hyin. lia. }
    f_equal. apply IH; [done..|].
    intros d. split; intros Hd.
    + assert (Hin : d ∈ x :: l') by (apply Hsame; by right).
      apply elem_of_cons in Hin as [->|?]; [|done].
      apply Hlt in Hd. lia.
    + assert (Hin : d ∈ x :: l) by (apply Hsame; by right).
      apply elem_of_cons in Hin as [->|?]; [|done].
      apply Hlt' in Hd. lia.
Qed.

(** A block has one literal emission only. *)
Lemma literal_emission_unique blk lit lit' :
  LiteralEmission blk lit → LiteralEmission blk lit' → lit' = lit.
Proof.
  intros HL HL'. apply ascending_same_items.
  - by destruct HL' as (_ & H & _).
  - by destruct HL as (_ & H & _).
  - intros d. symmetry. by apply (literal_same_items blk).
Qed.

(** C5. A data block whose bytes are all zero and that holds no symbolic
    expression is printed as exactly one "reserve N zero bytes" directive.
    A block with a non-zero byte or a symbolic expression is printed
    literally and whole: no compressed directive, the items in ascending
    offset order, each byte item carrying the block's byte at its offset,
    each symbolic item carrying the expression recorded at its offset,
    every offset of the block printed or standing under a printed symbolic
    expression. A symbolic item is printed instead of the bytes it stands
    for: no byte item and no other item stands at an offset under it, past
    its first. These facts leave no choice: any list of items that has
    them is the one printed. With no symbolic expression the items are the
    bytes, one by one. *)
Theorem data_block_zero_run_or_literal :
  ∀ (os : list Directive) (blk : DataBlock),
    let n := length (bytes blk) in
    let syms := symbolicExpressions blk in
    ((∀ b, b ∈ bytes blk → b = Byte.x00) →
     (∀ off, off < n → syms !! off = None) →
     printBlockContents os blk = os ++ [Zeros n])
    ∧ ((∃ b, b ∈ bytes blk ∧ b ≠ Byte.x00)
       ∨ (∃ off, off < n ∧ is_Some (syms !! off)) →
       ∃ lit : list Directive,
         printBlockContents os blk = os ++ lit
         ∧ Forall (λ d, isZeros d = false) lit
         ∧ StronglySorted lt (offsetOf <$> lit)
         ∧ (∀ o b, ByteAt o b ∈ lit →
                   bytes blk !! o = Some b ∧ syms !! o = None)
         ∧ (∀ o e, SymbolicAt o e ∈ lit →
                   o < n ∧ ∃ size, syms !! o = Some (e, size))
         ∧ (∀ o, o < n →
                 (∃ b, ByteAt o b ∈ lit)
                 ∨ (∃ o' e size, SymbolicAt o' e ∈ lit
                                 ∧ syms !! o' = Some (e, size)
                                 ∧ o' ≤ o < o' + Pos.to_nat size))
         ∧ (∀ o' e size d,
              SymbolicAt o' e ∈ lit → syms !! o' = Some (e, size) →
              d ∈ lit → ¬ (o' < offsetOf d < o' + Pos.to_nat size))
         ∧ (∀ o' e size o b,
              SymbolicAt o' e ∈ lit → syms !! o' = Some (e, size) →
              o' ≤ o < o' + Pos.to_nat size → ByteAt o b ∉ lit)
         ∧ (∀ lit' : list Directive, LiteralEmission blk lit' → lit' = lit)
         ∧ ((∀ off, off < n → syms !! off = None) →
            lit = imap ByteAt (bytes blk))).
Proof.
  intros os blk n syms. split.
  - intros Hz Hs. apply printBlockContents_zero.
    + by apply allZero_true.
    + by apply noSymbolic_true.
  - intros Hlit. exists (emitLiteral syms 0 0 (bytes blk)).
    pose proof (emitLiteral_is_literal blk) as HL.
    pose proof HL as (Hzeros & Hsorted & Hbyte & Hsym & Hcov & Hunder).
    fold syms in Hzeros, Hsorted, Hbyte, Hsym, Hcov, Hunder.
    split; [|split; [done|split; [done|split; [done|split; [done|
            split; [done|split; [done|split; [|split]]]]]]]].
    + apply printBlockContents_literal. apply andb_false_iff.
      destruct Hlit as [(b & Hb & Hne)|(off & Hoff & Hsome)].
      * left. apply not_true_is_false. intros Hall.
        apply Hne. by apply (proj1 (allZero_true blk) Hall).
      * right. apply not_true_is_false. intros Hall.
        pose proof (proj1 (noSymbolic_true blk) Hall off Hoff) as Hnone.
        destruct Hsome as [x Hx]. unfold syms in Hx. congruence.
    + intros o' e size o b He Hsz Ho Hb.
      destruct (decide (o = o')) as [->|Hne].
      * destruct (Hbyte _ _ Hb) as [_ Hnone]. congruence.
      * apply (Hunder _ _ _ _ He Hsz Hb). cbn [offsetOf]. lia.
    + intros lit' HL'. by apply (literal_emission_unique blk).
    + intros Hnone. unfold syms. rewrite emitLiteral_bytes; [done|].
      intros o Ho. apply Hnone. unfold n. lia.
Qed.

End DataBlocksFacts.

(** ** More on [PolicyOptions]: what [apply] does and never does *)
Module PolicyOptionsAlgebra.
Import PolicyOptions PolicyOptionsFacts.

(** X1. The result of [apply] does not depend on the order in which the
    two loops walk the unordered sets, nor on a name being visited more
    than once: run over any enumerations of [Skip] and [Keep], the body
    leaves the same store. *)
Theorem apply_iteration_order_irrelevant (sk kp : list string) (h : Store) :
  (∀ s, s ∈ sk ↔ s ∈ Skip (this h)) →
  (∀ s, s ∈ kp ↔ s ∈ Keep (this h)) →
  apply_body_with sk kp h = apply_body h.
Proof.
  intros Hsk Hkp.
  assert (Hthis : this (apply_body_with sk kp h) = this (apply_body h)).
  { rewrite apply_body_this. unfold apply_body_with.
    rewrite erase_all_this, insert_range_this.
    by destruct (UseDefaults (this h)). }
  assert (Hc : c (apply_body_with sk kp h) = c (apply_body h)).
  { apply set_eq. intros s. rewrite apply_body_c. unfold apply_body_with.
    rewrite erase_all_c, insert_range_c, Hsk, Hkp.
    destruct (UseDefaults (this h)); cbn; set_solver. }
  destruct (apply_body_with sk kp h), (apply_body h); cbn in *; congruence.
Qed.

Lemma apply_iteration_order_irrelevant_witness :
  let h := {| this := {| Skip := {[ "a"; "b" ]}; Keep := {[ "c" ]};
                         UseDefaults := true |};
              c := {[ "c"; "d" ]} |} in
  (∀ s, s ∈ ["b"; "a"; "b"] ↔ s ∈ Skip (this h))
  ∧ (∀ s, s ∈ ["c"; "c"] ↔ s ∈ Keep (this h))
  ∧ apply_body_with ["b"; "a"; "b"] ["c"; "c"] h = apply_body h.
Proof.
  cbv zeta.
  assert (H1 : ∀ s : string, s ∈ ["b"; "a"; "b"] ↔ s ∈ ({[ "a"; "b" ]} : gset string))
    by set_solver.
  assert (H2 : ∀ s : string, s ∈ ["c"; "c"] ↔ s ∈ ({[ "c" ]} : gset string))
    by set_solver.
  split; [exact H1|]. split; [exact H2|].
  exact (apply_iteration_order_irrelevant _ _
           {| this := {| Skip := {[ "a"; "b" ]}; Keep := {[ "c" ]};
                         UseDefaults := true |};
              c := {[ "c"; "d" ]} |} H1 H2).
Defined.

(** X2. [apply] is idempotent: applying the same option to its own result
    changes nothing more. *)
Theorem apply_twice_same :
  ∀ (o : t) (base : gset string), apply o (apply o base) = apply o base.
Proof.
  intros o base. rewrite !apply_unfold. destruct (UseDefaults o); set_solver.
Qed.

(** X3. When [apply] is a no-op: the set comes back unchanged exactly when
    it already holds every skipped name that is not kept, holds no kept
    name, and, for an option that drops the defaults, holds skipped names
    only. *)
Theorem apply_fixed_point :
  ∀ (o : t) (base : gset string),
    apply o base = base
    ↔ Skip o ∖ Keep o ⊆ base
      ∧ base ## Keep o
      ∧ (UseDefaults o = false → base ⊆ Skip o).
Proof.
  intros o base. rewrite apply_unfold.
  destruct (UseDefaults o); split.
  - intros <-. split; [set_solver|]. split; [set_solver|done].
  - intros (Hs & Hk & _). set_solver.
  - intros <-. split; [set_solver|]. split; [set_solver|]. set_solver.
  - intros (Hs & Hk & Hb). specialize (Hb eq_refl). set_solver.
Qed.

(** X4. Two options applied one after the other act as one option. When
    the second drops the defaults it alone decides; otherwise the combined
    option skips what the first leaves skipped and what the second skips,
    keeps what the second keeps and what the first keeps unless the second
    skips it, and treats the defaults as the first does. *)
Theorem apply_then_apply :
  ∀ (o1 o2 : t) (base : gset string),
    apply o2 (apply o1 base)
    = apply (if UseDefaults o2
             then {| Skip := (Skip o1 ∖ Keep o1) ∪ Skip o2;
                     Keep := Keep o2 ∪ (Keep o1 ∖ Skip o2);
                     UseDefaults := UseDefaults o1 |}
             else o2) base.
Proof.
  intros o1 o2 base. rewrite (apply_unfold o2), (apply_unfold o1).
  destruct (UseDefaults o2) eqn:H2; rewrite apply_unfold; cbn [UseDefaults Skip Keep].
  - apply set_eq. intros x. destruct (UseDefaults o1);
      rewrite !elem_of_difference, !elem_of_union, !elem_of_difference;
      try rewrite !elem_of_union;
      destruct (decide (x ∈ Skip o2)); set_solver.
  - rewrite H2. set_solver.
Qed.

(** X5. [apply] is monotone in the set it is applied to. *)
Theorem apply_monotone (o : t) (base1 base2 : gset string) :
  base1 ⊆ base2 → apply o base1 ⊆ apply o base2.
Proof.
  intros Hsub. rewrite !apply_unfold. destruct (UseDefaults o); set_solver.
Qed.

Lemma apply_monotone_witness :
  ({[ "a" ]} : gset string) ⊆ {[ "a"; "b" ]}
  ∧ apply {| Skip := {[ "c" ]}; Keep := {[ "b" ]}; UseDefaults := true |}
          {[ "a" ]}
    ⊆ apply {| Skip := {[ "c" ]}; Keep := {[ "b" ]}; UseDefaults := true |}
            {[ "a"; "b" ]}.
Proof.
  assert (H : ({[ "a" ]} : gset string) ⊆ {[ "a"; "b" ]}) by set_solver.
  split; [exact H|].
  exact (apply_monotone
           {| Skip := {[ "c" ]}; Keep := {[ "b" ]}; UseDefaults := true |}
           _ _ H).
Defined.

End PolicyOptionsAlgebra.

(** ** Sequences of setter calls *)
Module PolicySettersFacts.
Import PolicyOptions PolicyOptionsFacts PolicySetters.

Lemma option_ext (a b : t) :
  Skip a = Skip b → Keep a = Keep b → UseDefaults a = UseDefaults b → a = b.
Proof. destruct a, b; cbn. by intros -> -> ->. Qed.

(** The three members after a sequence of calls. *)
Lemma calls_members ms o :
  Skip (calls ms o) = Skip o ∪ list_to_set (skipped ms)
  ∧ Keep (calls ms o) = Keep o ∪ list_to_set (kept ms)
  ∧ UseDefaults (calls ms o) = lastUseDefaults ms (UseDefaults o).
Proof.
  unfold calls, lastUseDefaults. revert o.
  induction ms as [|m ms IH]; intros o.
  - cbn. split; [set_solver|]. split; [set_solver|done].
  - cbn [foldl]. destruct (IH (call o m)) as (Hs & Hk & Hu).
    rewrite Hs, Hk, Hu. destruct m as [s|s|value]; cbn; set_solver.
Qed.

(** X6. After any sequence of [skip], [keep] and [useDefaults] calls the
    object holds the names it held plus every name passed to [skip], the
    kept names it held plus every name passed to [keep], and the flag of
    the last [useDefaults] call (its old flag when there was none);
    [apply] then acts accordingly. Nothing a setter does is undone by a
    later one, except the flag. *)
Theorem setter_calls_accumulate :
  ∀ (ms : list Setter) (o : t),
    Skip (calls ms o) = Skip o ∪ list_to_set (skipped ms)
    ∧ Keep (calls ms o) = Keep o ∪ list_to_set (kept ms)
    ∧ UseDefaults (calls ms o) = lastUseDefaults ms (UseDefaults o)
    ∧ ∀ base : gset string,
        apply (calls ms o) base
        = ((if lastUseDefaults ms (UseDefaults o) then base else ∅)
             ∪ Skip o ∪ list_to_set (skipped ms))
            ∖ (Keep o ∪ list_to_set (kept ms)).
Proof.
  intros ms o. destruct (calls_members ms o) as (Hs & Hk & Hu).
  split; [done|]. split; [done|]. split; [done|].
  intros base. rewrite apply_unfold, Hs, Hk, Hu. set_solver.
Qed.

(** X7. Configuration is insensitive to the order of the calls and to
    repeated calls: two sequences that pass the same names to [skip], the
    same names to [keep] and end on the same [useDefaults] flag leave the
    same object. *)
Theorem setter_calls_order_irrelevant (ms1 ms2 : list Setter) (o : t) :
  (∀ s, s ∈ skipped ms1 ↔ s ∈ skipped ms2) →
  (∀ s, s ∈ kept ms1 ↔ s ∈ kept ms2) →
  lastUseDefaults ms1 (UseDefaults o) = lastUseDefaults ms2 (UseDefaults o) →
  calls ms1 o = calls ms2 o.
Proof.
  intros Hs Hk Hu.
  destruct (calls_members ms1 o) as (Hs1 & Hk1 & Hu1).
  destruct (calls_members ms2 o) as (Hs2 & Hk2 & Hu2).
  apply option_ext.
  - rewrite Hs1, Hs2. apply set_eq. intros s.
    rewrite !elem_of_union, !elem_of_list_to_set, Hs. done.
  - rewrite Hk1, Hk2. apply set_eq. intros s.
    rewrite !elem_of_union, !elem_of_list_to_set, Hk. done.
  - by rewrite Hu1, Hu2.
Qed.

Lemma setter_calls_order_irrelevant_witness :
  let ms1 := [CallSkip "a"; CallKeep "b"; CallUseDefaults false;
              CallSkip "c"] in
  let ms2 := [CallUseDefaults true; CallSkip "c"; CallSkip "a";
              CallUseDefaults false; CallKeep "b"; CallSkip "c"] in
  (∀ s, s ∈ skipped ms1 ↔ s ∈ skipped ms2)
  ∧ (∀ s, s ∈ kept ms1 ↔ s ∈ kept ms2)
  ∧ lastUseDefaults ms1 (UseDefaults default)
    = lastUseDefaults ms2 (UseDefaults default)
  ∧ calls ms1 default = calls ms2 default.
Proof.
  cbv zeta.
  assert (H1 : ∀ s : string,
             s ∈ skipped [CallSkip "a"; CallKeep "b"; CallUseDefaults false;
                          CallSkip "c"]
             ↔ s ∈ skipped [CallUseDefaults true; CallSkip "c"; CallSkip "a";
                            CallUseDefaults false; CallKeep "b"; CallSkip "c"])
    by (cbn; set_solver).
  assert (H2 : ∀ s : string,
             s ∈ kept [CallSkip "a"; CallKeep "b"; CallUseDefaults false;
                       CallSkip "c"]
             ↔ s ∈ kept [CallUseDefaults true; CallSkip "c"; CallSkip "a";
                         CallUseDefaults false; CallKeep "b"; CallSkip "c"])
    by (cbn; set_solver).
  split; [exact H1|]. split; [exact H2|]. split; [reflexivity|].
  exact (setter_calls_order_irrelevant _ _ default H1 H2 eq_refl).
Defined.

End PolicySettersFacts.

(** ** [class PrettyPrinter]: the four options are independent *)
Module PrettyPrinterFacts.
Import PolicySetters PrettyPrinter.

Lemma policy_through k k' f pp :
  policy k (through k' f pp)
  = if decide (k' = k) then f (policy k pp) else policy k pp.
Proof. by destruct k, k'. Qed.

Lemma policy_setPolicyName k Name pp :
  policy k (setPolicyName Name pp) = policy k pp.
Proof. by destruct k. Qed.

Lemma configure_policy cmds pp k :
  policy k (configure cmds pp) = calls (settersOf k cmds) (policy k pp).
Proof.
  unfold configure, calls. revert pp.
  induction cmds as [|cmd cmds IH]; intros pp; [done|].
  cbn [foldl]. rewrite IH. unfold settersOf. cbn [omap list_omap].
  destruct cmd as [k' m|Name]; cbn [exec].
  - rewrite policy_through. by destruct (decide (k' = k)).
  - by rewrite policy_setPolicyName.
Qed.

Lemma configure_rest cmds pp :
  getPolicyName (configure cmds pp) = lastPolicyName cmds (getPolicyName pp)
  ∧ m_format (configure cmds pp) = m_format pp
  ∧ m_isa (configure cmds pp) = m_isa pp
  ∧ m_syntax (configure cmds pp) = m_syntax pp
  ∧ m_debug (configure cmds pp) = m_debug pp.
Proof.
  unfold configure, lastPolicyName. revert pp.
  induction cmds as [|cmd cmds IH]; intros pp; [done|].
  cbn [foldl]. destruct (IH (exec pp cmd)) as (Hn & Hf & Hi & Hs & Hd).
  rewrite Hn, Hf, Hi, Hs, Hd.
  destruct cmd as [[] m|Name]; done.
Qed.

(** A fresh printer told to skip two functions, keep one symbol and use
    the policy "dynamic". *)
Example configure_fresh_printer :
  let pp := configure [Through Functions (CallSkip "main");
                       Through Symbols (CallKeep "_start");
                       SetPolicyName "dynamic";
                       Through Functions (CallSkip "_init")]
                      (construct NoDebug) in
  PolicyOptions.apply (policy Functions pp) {[ "_fini" ]}
    = {[ "_fini"; "main"; "_init" ]}
  ∧ PolicyOptions.apply (policy Symbols pp) {[ "_start"; "_end" ]}
    = {[ "_end" ]}
  ∧ PolicyOptions.apply (policy Sections pp) {[ ".plt" ]} = {[ ".plt" ]}
  ∧ getPolicyName pp = "dynamic".
Proof.
  cbv zeta. repeat split; rewrite ?PolicyOptionsFacts.apply_unfold; cbn;
    set_solver.
Qed.

(** X8. The four policy options of a printer and its policy name are
    configured independently. After any sequence of setter calls made
    through the four accessors and of [setPolicyName] calls, the option of
    a category is what that category's own calls make of it, untouched by
    the calls on the other three and by the naming; the name is the last
    one set; format, ISA, syntax and debug style are as before. *)
Theorem printer_options_independent :
  ∀ (cmds : list Command) (pp : t),
    (∀ k : Category,
       policy k (configure cmds pp) = calls (settersOf k cmds) (policy k pp))
    ∧ getPolicyName (configure cmds pp)
      = lastPolicyName cmds (getPolicyName pp)
    ∧ m_format (configure cmds pp) = m_format pp
    ∧ m_isa (configure cmds pp) = m_isa pp
    ∧ m_syntax (configure cmds pp) = m_syntax pp
    ∧ m_debug (configure cmds pp) = m_debug pp.
Proof.
  intros cmds pp. split.
  - intros k. apply configure_policy.
  - apply configure_rest.
Qed.

End PrettyPrinterFacts.
